(** * Verification model of invoiceninja-mercury-sync (src/main.go)

    Shallow embedding of the synchronisation engine: the dedup ledger
    ([SyncState.ProcessedTxIDs], a Go map from transaction ID to the time it
    was first recorded), the pruning loop and the per-account / per-transaction
    loops of [syncTransactions], the main scheduling loop of [main] with
    [saveState], and the request construction of
    [createInvoiceNinjaTransaction] / [getRequest].

    Time is an integer number of seconds ([Z]); the container image has no
    time zone data, so [time.Now().AddDate(0, 0, -d)] is [now - d * 86400]. *)

From Stdlib Require Import QArith Qabs Ascii.
From stdpp Require Import base gmap strings list.

Open Scope Z_scope.

(* ------------------------------------------------------------------ *)
(** ** Data model (main.go lines 22-63) *)

(** A timestamp as [time.Time] carries it: calendar fields in its own
    location, plus the sub-day clock. *)
Record Timestamp := {
  ts_year : Z; ts_month : Z; ts_day : Z;
  ts_hour : Z; ts_minute : Z; ts_second : Z; ts_nanos : Z
}.

Record MercuryAccount := {
  acct_ID : string;
  acct_Name : string
}.

(** [Amount] is a float64 in the source; the JSON amounts of the bank API
    are finite decimals, modelled exactly as rationals. *)
Record MercuryTransaction := {
  tx_ID : string;
  tx_Amount : Q;
  tx_BankDescription : string;
  tx_PostedAt : Timestamp
}.

Record InvoiceNinjaBankTX := {
  bt_Amount : Q;
  bt_Date : string;
  bt_Description : string;
  bt_BankIntegrationID : string;
  bt_BaseType : string
}.

Record Config := {
  MercuryAPIKey : string;
  InvoiceNinjaToken : string;
  InvoiceNinjaURL : string;
  BankProvider : string;
  SyncIntervalHours : Z;
  SyncStartDaysAgo : Z;
  LogLevel : string;
  stateFilePath : string;
  bankIntegrationID : string;
  mercuryAccounts : list MercuryAccount
}.

(** [SyncState.ProcessedTxIDs : map[string]time.Time]. *)
Abbreviation Ledger := (gmap string Z).

(** A Go [error] value: [None] is [nil]. *)
Abbreviation error := (option string).

(** Instants are nanoseconds since the Unix epoch, as [time.Time] holds
    them (seconds and nanoseconds). *)
Definition second_ns : Z := 10 ^ 9.
Definition hour_ns : Z := 3600 * second_ns.
Definition day_ns : Z := 86400 * second_ns.

(** Go's [int64] arithmetic: the representative of [x] modulo [2^64] in
    [-2^63, 2^63). *)
Definition wrap_int64 (x : Z) : Z := (x + 2 ^ 63) mod 2 ^ 64 - 2 ^ 63.

(** [time.Time] stores its seconds counted from January 1 of year 1:
    [unixToInternal] seconds before the Unix epoch. *)
Definition unix_to_internal : Z := 62135596800.

(** [t.AddDate(0, 0, d)] in a zone without daylight-saving changes (UTC in
    the image): [time.Date] on the same wall clock [d] days later, whose day
    arithmetic runs in 64-bit integers, so the resulting seconds (counted
    from year 1) are the exact ones modulo [2^64]; the nanoseconds are
    kept. *)
Definition add_days (t d : Z) : Z :=
  let sec := t / second_ns + unix_to_internal in
  (wrap_int64 (sec + d * 86400) - unix_to_internal) * second_ns + t mod second_ns.

(* ------------------------------------------------------------------ *)
(** ** Pruning (syncTransactions, lines 290-296) *)

(** The retention constant hard-coded on line 290. *)
Definition retention_days : Z := 7.

Definition prune_cutoff (now : Z) : Z := add_days now (- retention_days).

(** One iteration of [for id, timestamp := range state.ProcessedTxIDs]:
    [if timestamp.Before(cutoffTime) { delete(state.ProcessedTxIDs, id) }].
    Go allows deleting the current key during the range loop. *)
Definition prune_step (cutoff : Z) (kv : string * Z) (m : Ledger) : Ledger :=
  if Z.ltb kv.2 cutoff then delete kv.1 m else m.

(** The range loop visits every entry of the map once, in an unspecified
    order; [map_to_list] fixes one such order. *)
Definition prune (now : Z) (l : Ledger) : Ledger :=
  foldr (prune_step (prune_cutoff now)) l (map_to_list l).

(* ------------------------------------------------------------------ *)
(** ** One reconciliation cycle (syncTransactions, lines 298-334) *)

(** What the cycle does observably: log lines and the post requests it
    issues (with their outcome). *)
Inductive Event :=
  | EvFetchError (a : MercuryAccount) (e : string)   (* slog.Error, line 304 *)
  | EvSkip (tx : MercuryTransaction)                 (* slog.Debug, line 315 *)
  | EvPost (tx : MercuryTransaction) (ok : bool).    (* line 319 *)

(** The outside world of one cycle: the clock reading of line 290, the
    answer of [fetchMercuryTransactions] per account ([inl] is an error), the
    result of [createInvoiceNinjaTransaction] per transaction, and the clock
    reading [time.Now()] of line 322, taken after the transaction's post
    returned (each ID is posted at most once per cycle). *)
Record Env := {
  env_now : Z;
  env_fetch : MercuryAccount -> string + list MercuryTransaction;
  env_post : MercuryTransaction -> error;
  env_stamp : MercuryTransaction -> Z
}.

(** The inner loop over [txs] (lines 313-326).  Returns the mutated ledger,
    the events and the error the function returns ([return err] on line 320
    leaves the ledger mutations made so far in place: [state] is a pointer). *)
Fixpoint process_txs (env : Env) (txs : list MercuryTransaction) (st : Ledger)
  : Ledger * list Event * error :=
  match txs with
  | [] => (st, [], None)
  | tx :: rest =>
      match st !! tx_ID tx with
      | Some _ =>
          let '(st', ev, r) := process_txs env rest st in
          (st', EvSkip tx :: ev, r)
      | None =>
          match env_post env tx with
          | Some e => (st, [EvPost tx false], Some e)
          | None =>
              let '(st', ev, r) :=
                process_txs env rest (<[tx_ID tx := env_stamp env tx]> st) in
              (st', EvPost tx true :: ev, r)
          end
      end
  end.

(** The outer loop over [config.mercuryAccounts] (lines 299-330).  A fetch
    error is logged and the account skipped ([continue]); an empty list is
    skipped as well. *)
Fixpoint process_accounts (env : Env) (accts : list MercuryAccount) (st : Ledger)
  : Ledger * list Event * error :=
  match accts with
  | [] => (st, [], None)
  | a :: rest =>
      match env_fetch env a with
      | inl e =>
          let '(st', ev, r) := process_accounts env rest st in
          (st', EvFetchError a e :: ev, r)
      | inr txs =>
          match process_txs env txs st with
          | (st1, ev1, Some e) => (st1, ev1, Some e)
          | (st1, ev1, None) =>
              let '(st2, ev2, r) := process_accounts env rest st1 in
              (st2, ev1 ++ ev2, r)
          end
      end
  end.

Definition syncTransactions (env : Env) (cfg : Config) (st : Ledger)
  : Ledger * list Event * error :=
  process_accounts env (mercuryAccounts cfg) (prune (env_now env) st).

(** Number of post requests issued for a transaction ID. *)
Definition is_post_of (id : string) (ev : Event) : bool :=
  match ev with
  | EvPost tx _ => bool_decide (tx_ID tx = id)
  | _ => false
  end.

Fixpoint count_posts (id : string) (evs : list Event) : nat :=
  match evs with
  | [] => 0%nat
  | ev :: rest => ((if is_post_of id ev then 1 else 0) + count_posts id rest)%nat
  end.

(** The post requests issued, in order. *)
Fixpoint post_requests (evs : list Event) : list MercuryTransaction :=
  match evs with
  | [] => []
  | EvPost tx _ :: rest => tx :: post_requests rest
  | _ :: rest => post_requests rest
  end.

(* ------------------------------------------------------------------ *)
(** ** Persistence (saveState, lines 123-139) and the main loop (389-399) *)

(** The state file on disk. *)
Inductive Disk :=
  | DiskAbsent
  | DiskSnapshot (l : Ledger)
  | DiskCorrupt.

(** How [saveState] ends: it succeeds, fails before the file is touched
    ([json.Marshal] or [os.MkdirAll] fails), or fails inside [os.WriteFile],
    which truncates the file in place and may leave it partially written. *)
Inductive SaveOutcome :=
  | SaveOk
  | SaveFailsBeforeWrite (e : string)
  | SaveFailsWriting (e : string).

Definition saveState (o : SaveOutcome) (st : Ledger) (d : Disk) : Disk * error :=
  match o with
  | SaveOk => (DiskSnapshot st, None)
  | SaveFailsBeforeWrite e => (d, Some e)
  | SaveFailsWriting e => (DiskCorrupt, Some e)
  end.

(** Log lines written by [main]. *)
Inductive MainLog :=
  | LogSyncError (e : string)    (* "Error in sync", line 391 *)
  | LogSaveError (e : string).   (* "Error saving state", line 393 *)

(** The process state of [main]: the in-memory [state] (one pointer for the
    whole process lifetime), the state file, the log and the clock. *)
Record Process := {
  mem : Ledger;
  disk : Disk;
  logs : list MainLog;
  clock : Z
}.

(** What the world supplies to one iteration of [for { ... }]: the fetch and
    post answers, when (after the start of the iteration) line 322 reads the
    clock for a transaction, the way [saveState] ends, and how long the
    iteration body (sync and save) takes until [time.Now()] on line 396. *)
Record Tick := {
  tick_fetch : MercuryAccount -> string + list MercuryTransaction;
  tick_post : MercuryTransaction -> error;
  tick_stamp : MercuryTransaction -> Z;
  tick_save : SaveOutcome;
  tick_duration : Z
}.

Definition tick_env (t : Tick) (now : Z) : Env :=
  {| env_now := now; env_fetch := tick_fetch t; env_post := tick_post t;
     env_stamp := fun tx => now + tick_stamp t tx |}.

(** Lines 390-394: run the cycle; on error log it, otherwise save and log a
    save error.  The in-memory ledger is [state] itself in both cases. *)
Definition main_body (cfg : Config) (t : Tick) (p : Process) : Process :=
  let '(st', _, r) := syncTransactions (tick_env t (clock p)) cfg (mem p) in
  match r with
  | Some e =>
      {| mem := st'; disk := disk p; logs := logs p ++ [LogSyncError e];
         clock := clock p |}
  | None =>
      let '(d', se) := saveState (tick_save t) st' (disk p) in
      {| mem := st'; disk := d';
         logs := logs p ++ match se with Some e => [LogSaveError e] | None => [] end;
         clock := clock p |}
  end.

(** [time.Duration(config.SyncIntervalHours) * time.Hour]: a product of
    [int64] nanoseconds, which wraps around. *)
Definition interval_ns (cfg : Config) : Z :=
  wrap_int64 (SyncIntervalHours cfg * hour_ns).

(** Lines 396-398: [nextSync := time.Now().Add(interval)] read after the body,
    then [time.Sleep(time.Until(nextSync))]: the sleep lasts the interval
    (less the instants between the two clock readings), and a non-positive
    sleep returns at once. *)
Definition next_start (cfg : Config) (start duration : Z) : Z :=
  let body_end := start + duration in
  body_end + Z.max 0 (interval_ns cfg).

Definition main_iteration (cfg : Config) (t : Tick) (p : Process) : Process :=
  let p' := main_body cfg t p in
  {| mem := mem p'; disk := disk p'; logs := logs p';
     clock := next_start cfg (clock p) (tick_duration t) |}.

(** The states at the start of successive cycles, for a finite prefix of the
    infinite loop. *)
Fixpoint run (cfg : Config) (ticks : list Tick) (p : Process) : list Process :=
  match ticks with
  | [] => [p]
  | t :: ts => p :: run cfg ts (main_iteration cfg t p)
  end.

(* ------------------------------------------------------------------ *)
(** ** Request construction (getRequest, rh.NewRequest, lines 170-287) *)

(** The dynamic values passed as [body any]. *)
Inductive GoValue :=
  | VNil
  | VBytes (b : string)
  | VBankTX (t : InvoiceNinjaBankTX).

Record Request := {
  req_Method : string;
  req_URL : string;
  req_Header : list (string * string);
  req_Body : option string
}.

(** [retryablehttp.NewRequest]: the raw body is dispatched on its dynamic
    type (ReaderFunc, []byte, bytes.Buffer, io.Reader, ... or nil); any other
    type is refused with "cannot handle type %T". *)
Definition rh_NewRequest (method url : string) (raw : GoValue) : string + Request :=
  match raw with
  | VNil => inr {| req_Method := method; req_URL := url; req_Header := [];
                   req_Body := None |}
  | VBytes b => inr {| req_Method := method; req_URL := url; req_Header := [];
                       req_Body := Some b |}
  | VBankTX _ => inl "cannot handle type main.InvoiceNinjaBankTX"
  end.

(** [req.Header.Set(k, v)] *)
Definition header_set (k v : string) (h : list (string * string))
  : list (string * string) :=
  (k, v) :: filter (fun kv => kv.1 <> k) h.

Definition with_headers (hs : list (string * string)) (r : Request) : Request :=
  {| req_Method := req_Method r; req_URL := req_URL r;
     req_Header := foldr (fun kv h => header_set kv.1 kv.2 h) (req_Header r) hs;
     req_Body := req_Body r |}.

(** [getRequest], lines 170-188.  Inside [if body != nil { ... }] the
    statement [body, err := json.Marshal(body)] declares a new [body] local to
    that block: the encoded bytes are dropped at the closing brace, and
    [rh.NewRequest] on line 177 receives the original value.  [marshal] is
    [json.Marshal] ([inl] is its error). *)
Definition getRequest (marshal : GoValue -> string + string)
    (method url : string) (headers : list (string * string)) (body : GoValue)
  : string + Request :=
  let marshalled :=
    match body with
    | VNil => inr tt
    | _ => match marshal body with
           | inl e => inl ("error marshaling body: " +:+ method +:+ " " +:+ url
                           +:+ ": " +:+ " " +:+ e)
           | inr _ => inr tt
           end
    end in
  match marshalled with
  | inl e => inl e
  | inr _ =>
      match rh_NewRequest method url body with
      | inl e => inl ("error creating request: " +:+ method +:+ " " +:+ url
                      +:+ ": " +:+ e)
      | inr req =>
          let req := with_headers headers req in
          inr (match body with
               | VNil => req
               | _ => with_headers [("Content-Type", "application/json")] req
               end)
      end
  end.

Definition getInvoiceNinjaRequest (marshal : GoValue -> string + string)
    (cfg : Config) (method url : string) (body : GoValue) : string + Request :=
  getRequest marshal method (InvoiceNinjaURL cfg +:+ "/api/v1" +:+ url)
    [("X-API-Token", InvoiceNinjaToken cfg);
     ("X-Requested-With", "XMLHttpRequest")] body.

(** [t.Format("2006-01-02")]: zero-padded decimal fields. *)
Definition digit_char (d : Z) : string :=
  String (Ascii.ascii_of_nat (48 + Z.to_nat d)) EmptyString.

(** Decimal digits of a non-negative number; a Go [int] has at most 19. *)
Fixpoint decimal_aux (fuel : nat) (n : Z) : string :=
  match fuel with
  | O => ""
  | S f => if n <? 10 then digit_char n
           else decimal_aux f (n / 10) +:+ digit_char (n mod 10)
  end.

Definition decimal (n : Z) : string := decimal_aux 20 n.

Definition zero_pad (width : nat) (s : string) : string :=
  String.concat "" (repeat "0" (width - String.length s)) +:+ s.

Definition format_year (y : Z) : string :=
  if y <? 0 then "-" +:+ zero_pad 4 (decimal (- y)) else zero_pad 4 (decimal y).

Definition format_date (t : Timestamp) : string :=
  format_year (ts_year t) +:+ "-" +:+ zero_pad 2 (decimal (ts_month t))
  +:+ "-" +:+ zero_pad 2 (decimal (ts_day t)).

(** The record built on lines 268-279. *)
Definition bank_tx_of (cfg : Config) (tx : MercuryTransaction) : InvoiceNinjaBankTX :=
  let baseType := if Qlt_le_dec 0 (tx_Amount tx) then "CREDIT" else "DEBIT" in
  {| bt_Amount := Qabs (tx_Amount tx);
     bt_Date := format_date (tx_PostedAt tx);
     bt_Description := tx_BankDescription tx;
     bt_BankIntegrationID := bankIntegrationID cfg;
     bt_BaseType := baseType |}.

(** [createInvoiceNinjaTransaction], lines 264-287.  [send] is
    [submitRequest] on a built request (transport, status and response
    decoding).  Returns the error and the requests that left the process. *)
Definition createInvoiceNinjaTransaction (marshal : GoValue -> string + string)
    (send : Request -> error) (cfg : Config) (tx : MercuryTransaction)
  : error * list Request :=
  match getInvoiceNinjaRequest marshal cfg "POST" "/bank_transactions"
          (VBankTX (bank_tx_of cfg tx)) with
  | inl e => (Some e, [])
  | inr req => (send req, [req])
  end.

(* ------------------------------------------------------------------ *)
(** ** Configuration (loadConfig, lines 65-98) and the fetch window *)

(** The keys of the configuration file; a key that is absent (or [null])
    leaves the default in place, as [json.Unmarshal] into a pre-filled
    struct does. *)
Record ConfigJSON := {
  j_mercuryAPIKey : option string;
  j_invoiceNinjaToken : option string;
  j_invoiceNinjaURL : option string;
  j_invoiceNinjaBankProvider : option string;
  j_syncIntervalHours : option Z;
  j_syncStartDaysAgo : option Z;
  j_logLevel : option string
}.

(** Lines 66-72; [filepath.Join(dataDir, "sync_state.json")] for a clean
    [dataDir]. *)
Definition default_config (dataDir : string) : Config :=
  {| MercuryAPIKey := ""; InvoiceNinjaToken := ""; InvoiceNinjaURL := "";
     BankProvider := "Mercury"; SyncIntervalHours := 1; SyncStartDaysAgo := 7;
     LogLevel := "info"; stateFilePath := dataDir +:+ "/sync_state.json";
     bankIntegrationID := ""; mercuryAccounts := [] |}.

Definition apply_json (j : ConfigJSON) (c : Config) : Config :=
  {| MercuryAPIKey := default (MercuryAPIKey c) (j_mercuryAPIKey j);
     InvoiceNinjaToken := default (InvoiceNinjaToken c) (j_invoiceNinjaToken j);
     InvoiceNinjaURL := default (InvoiceNinjaURL c) (j_invoiceNinjaURL j);
     BankProvider := default (BankProvider c) (j_invoiceNinjaBankProvider j);
     SyncIntervalHours := default (SyncIntervalHours c) (j_syncIntervalHours j);
     SyncStartDaysAgo := default (SyncStartDaysAgo c) (j_syncStartDaysAgo j);
     LogLevel := default (LogLevel c) (j_logLevel j);
     stateFilePath := stateFilePath c;
     bankIntegrationID := bankIntegrationID c;
     mercuryAccounts := mercuryAccounts c |}.

Definition with_url (u : string) (c : Config) : Config :=
  {| MercuryAPIKey := MercuryAPIKey c; InvoiceNinjaToken := InvoiceNinjaToken c;
     InvoiceNinjaURL := u; BankProvider := BankProvider c;
     SyncIntervalHours := SyncIntervalHours c; SyncStartDaysAgo := SyncStartDaysAgo c;
     LogLevel := LogLevel c; stateFilePath := stateFilePath c;
     bankIntegrationID := bankIntegrationID c; mercuryAccounts := mercuryAccounts c |}.

(** [loadConfig].  [parsed] is the outcome of reading and decoding the file
    ([inl] is the error); [parseRequestURI] is [url.ParseRequestURI]'s error. *)
Definition loadConfig (parseRequestURI : string -> error)
    (dataDir invoiceNinjaURL : string) (parsed : string + ConfigJSON)
  : string + Config :=
  match parsed with
  | inl e => inl e
  | inr j =>
      let c := apply_json j (default_config dataDir) in
      if bool_decide (MercuryAPIKey c = "") then inl "missing Mercury API key"
      else if bool_decide (InvoiceNinjaToken c = "") then inl "missing InvoiceNinja token"
      else
        let c := if bool_decide (InvoiceNinjaURL c = "")
                 then with_url invoiceNinjaURL c else c in
        match parseRequestURI (InvoiceNinjaURL c) with
        | Some e => inl ("invalid InvoiceNinja URL: " +:+ e)
        | None => inr c
        end
  end.


(** [config.mercuryAccounts] replaced (the cycle with a different account
    list). *)
Definition with_accounts (accts : list MercuryAccount) (c : Config) : Config :=
  {| MercuryAPIKey := MercuryAPIKey c; InvoiceNinjaToken := InvoiceNinjaToken c;
     InvoiceNinjaURL := InvoiceNinjaURL c; BankProvider := BankProvider c;
     SyncIntervalHours := SyncIntervalHours c; SyncStartDaysAgo := SyncStartDaysAgo c;
     LogLevel := LogLevel c; stateFilePath := stateFilePath c;
     bankIntegrationID := bankIntegrationID c; mercuryAccounts := accts |}.

(* ------------------------------------------------------------------ *)
(** ** Responses and the API calls (submitRequest, lines 143-168; the
    fetches, lines 190-262) *)

(** A response as [submitRequest] sees it: the status code, the bytes that
    [io.ReadAll] returned and its error. *)
Record Response := {
  resp_StatusCode : Z;
  resp_Body : string;
  resp_ReadError : error
}.

(** [submitRequest].  [do_] is [retryClient.Do] ([inl] is its error, after
    the client's own retries); [unmarshal] is [json.Unmarshal] into the
    result type ([inl] is its error).  [%d] of a status code is its decimal
    form. *)
Definition submitRequest {A : Type} (do_ : Request -> string + Response)
    (unmarshal : string -> string + A) (req : Request) : string + A :=
  let what := req_Method req +:+ " " +:+ req_URL req in
  match do_ req with
  | inl e => inl ("error submitting request: " +:+ what +:+ ": " +:+ e)
  | inr resp =>
      if bool_decide (resp_StatusCode resp <> 200) then
        inl ("error submitting request: " +:+ what +:+ ": "
             +:+ decimal (resp_StatusCode resp) +:+ " " +:+ resp_Body resp)
      else
        match resp_ReadError resp with
        | Some e => inl ("error reading response body: " +:+ e)
        | None =>
            match unmarshal (resp_Body resp) with
            | inl e => inl ("error parsing JSON response: " +:+ what +:+ ": "
                            +:+ resp_Body resp +:+ " " +:+ e)
            | inr v => inr v
            end
        end
  end.

(** [getMercuryRequest], lines 190-195. *)
Definition getMercuryRequest (marshal : GoValue -> string + string)
    (cfg : Config) (method url : string) (body : GoValue) : string + Request :=
  getRequest marshal method ("https://api.mercury.com/api/v1" +:+ url)
    [("Authorization", "Bearer " +:+ MercuryAPIKey cfg)] body.

Record BankIntegration := {
  ig_ID : string;
  ig_ProviderName : string
}.

(** The loop of lines 254-260: the first integration whose provider name
    equals the configured one. *)
Fixpoint find_integration (provider : string) (igs : list BankIntegration)
  : option string :=
  match igs with
  | [] => None
  | ig :: rest =>
      if bool_decide (ig_ProviderName ig = provider) then Some (ig_ID ig)
      else find_integration provider rest
  end.

Definition with_bank_integration_id (id : string) (c : Config) : Config :=
  {| MercuryAPIKey := MercuryAPIKey c; InvoiceNinjaToken := InvoiceNinjaToken c;
     InvoiceNinjaURL := InvoiceNinjaURL c; BankProvider := BankProvider c;
     SyncIntervalHours := SyncIntervalHours c; SyncStartDaysAgo := SyncStartDaysAgo c;
     LogLevel := LogLevel c; stateFilePath := stateFilePath c;
     bankIntegrationID := id; mercuryAccounts := mercuryAccounts c |}.

(** [fetchBankIntegrationID], lines 240-262: the function updates
    [config] in place on success; the model returns the updated config with
    the error.  The decoded [data] array is the list [unmarshal] yields. *)
Definition fetchBankIntegrationID (marshal : GoValue -> string + string)
    (do_ : Request -> string + Response)
    (unmarshal : string -> string + list BankIntegration) (cfg : Config)
  : Config * error :=
  match getInvoiceNinjaRequest marshal cfg "GET" "/bank_integrations" VNil with
  | inl e => (cfg, Some e)
  | inr req =>
      match submitRequest do_ unmarshal req with
      | inl e => (cfg, Some e)
      | inr igs =>
          match find_integration (BankProvider cfg) igs with
          | Some id => (with_bank_integration_id id cfg, None)
          | None => (cfg, Some ("no bank integration found for provider: "
                                +:+ BankProvider cfg))
          end
      end
  end.

(** [fetchMercuryAccounts], lines 197-212. *)
Definition fetchMercuryAccounts (marshal : GoValue -> string + string)
    (do_ : Request -> string + Response)
    (unmarshal : string -> string + list MercuryAccount) (cfg : Config)
  : Config * error :=
  match getMercuryRequest marshal cfg "GET" "/accounts" VNil with
  | inl e => (cfg, Some e)
  | inr req =>
      match submitRequest do_ unmarshal req with
      | inl e => (cfg, Some e)
      | inr accts => (with_accounts accts cfg, None)
      end
  end.

(* ------------------------------------------------------------------ *)
(** ** Loading the state file (loadState, lines 100-121) and startup
    (main, lines 362-387) *)

(** [loadState] on the state file: no file gives an empty map; a snapshot
    decodes to its map; a corrupt file is a decoding error ([json_err] is the
    decoder's message). *)
Definition loadState (json_err : string) (d : Disk) : string + Ledger :=
  match d with
  | DiskAbsent => inr ∅
  | DiskSnapshot l => inr l
  | DiskCorrupt => inl ("error parsing state file: " +:+ json_err)
  end.

(** Lines 368-387 up to the loop: each step is fatal ([log.Fatalf]); the
    [inl] message is the one the process exits with.  [setupLog] and
    [setupHttpClient] only configure logging and retries.  The loop then
    starts from the loaded state at time [now0]. *)
Definition main_startup (parseRequestURI : string -> error)
    (dataDir flagURL : string) (parsed : string + ConfigJSON)
    (d : Disk) (json_err : string)
    (marshal : GoValue -> string + string) (do_ : Request -> string + Response)
    (un_igs : string -> string + list BankIntegration)
    (un_accts : string -> string + list MercuryAccount) (now0 : Z)
  : string + (Config * Process) :=
  match loadConfig parseRequestURI dataDir flagURL parsed with
  | inl e => inl ("Error loading configuration: " +:+ e)
  | inr cfg =>
      match loadState json_err d with
      | inl e => inl ("Error loading state: " +:+ e)
      | inr st =>
          match fetchBankIntegrationID marshal do_ un_igs cfg with
          | (_, Some e) => inl ("Error fetching bank integration ID: " +:+ e)
          | (cfg, None) =>
              match fetchMercuryAccounts marshal do_ un_accts cfg with
              | (_, Some e) => inl ("Error fetching Mercury accounts: " +:+ e)
              | (cfg, None) =>
                  inr (cfg, {| mem := st; disk := d; logs := []; clock := now0 |})
              end
          end
      end
  end.

(* ------------------------------------------------------------------ *)
(** ** Observers used by the properties *)

(** [req.Header.Get(k)] *)
Fixpoint header_get (k : string) (h : list (string * string)) : option string :=
  match h with
  | [] => None
  | kv :: rest => if bool_decide (kv.1 = k) then Some kv.2 else header_get k rest
  end.

(** The transaction ID an event concerns. *)
Definition event_id (ev : Event) : option string :=
  match ev with
  | EvFetchError _ _ => None
  | EvSkip tx | EvPost tx _ => Some (tx_ID tx)
  end.

(** The first event concerning [id]. *)
Fixpoint first_event_for (id : string) (evs : list Event) : option Event :=
  match evs with
  | [] => None
  | ev :: rest =>
      if bool_decide (event_id ev = Some id) then Some ev else first_event_for id rest
  end.

(** The clock reading of line 322 for the first successful post of [id] in
    the events, if there is one. *)
Fixpoint posted_stamp (env : Env) (id : string) (evs : list Event) : option Z :=
  match evs with
  | [] => None
  | EvPost tx true :: rest =>
      if bool_decide (tx_ID tx = id) then Some (env_stamp env tx)
      else posted_stamp env id rest
  | _ :: rest => posted_stamp env id rest
  end.

(** The signed amount a reader of the record recovers from its category
    and magnitude. *)
Definition signed_amount (bt : InvoiceNinjaBankTX) : Q :=
  if bool_decide (bt_BaseType bt = "CREDIT") then bt_Amount bt else (- bt_Amount bt)%Q.

(** Reading back a [YYYY-MM-DD] date. *)
Definition digit_value (c : Ascii.ascii) : Z := Z.of_nat (Ascii.nat_of_ascii c) - 48.

Definition parse_date (s : string) : option (Z * Z * Z) :=
  match s with
  | String y1 (String y2 (String y3 (String y4 (String "-"%char
      (String m1 (String m2 (String "-"%char (String d1 (String d2 EmptyString))))))))) =>
      Some (1000 * digit_value y1 + 100 * digit_value y2 + 10 * digit_value y3
              + digit_value y4,
            10 * digit_value m1 + digit_value m2,
            10 * digit_value d1 + digit_value d2)
  | _ => None
  end.

Definition check_pad4 (n : Z) : bool :=
  match zero_pad 4 (decimal n) with
  | String a (String b (String c (String e EmptyString))) =>
      Z.eqb (1000 * digit_value a + 100 * digit_value b + 10 * digit_value c
             + digit_value e) n
  | _ => false
  end.

Definition check_pad2 (n : Z) : bool :=
  match zero_pad 2 (decimal n) with
  | String a (String b EmptyString) => Z.eqb (10 * digit_value a + digit_value b) n
  | _ => false
  end.

(** The shape of a cycle's events and error: an error is that of the
    last event, a failed post, and no failed post precedes it; without an
    error no post failed. *)
Definition failed_post_shape (env : Env) (res : Ledger * list Event * error) : Prop :=
  match res.2 with
  | Some e => exists pre tx, res.1.2 = pre ++ [EvPost tx false] /\
                env_post env tx = Some e /\
                (forall tx', ~ In (EvPost tx' false) pre)
  | None => forall tx, ~ In (EvPost tx false) res.1.2
  end.

(* ------------------------------------------------------------------ *)
(** ** Sample inputs *)

Definition sample_date : Timestamp :=
  {| ts_year := 2024; ts_month := 3; ts_day := 5;
     ts_hour := 14; ts_minute := 30; ts_second := 0; ts_nanos := 0 |}.

(** +125.50 and -40.00 *)
Definition tx_credit : MercuryTransaction :=
  {| tx_ID := "tx-1"; tx_Amount := (12550 # 100)%Q;
     tx_BankDescription := "Client payment"; tx_PostedAt := sample_date |}.

Definition tx_debit : MercuryTransaction :=
  {| tx_ID := "tx-2"; tx_Amount := (-40 # 1)%Q;
     tx_BankDescription := "Card fee"; tx_PostedAt := sample_date |}.

Definition acct_A : MercuryAccount := {| acct_ID := "acc-A"; acct_Name := "Checking" |}.
Definition acct_B : MercuryAccount := {| acct_ID := "acc-B"; acct_Name := "Savings" |}.

Definition sample_config (accts : list MercuryAccount) : Config :=
  {| MercuryAPIKey := "mercury-key"; InvoiceNinjaToken := "ninja-token";
     InvoiceNinjaURL := "https://invoicing.example.com"; BankProvider := "Mercury";
     SyncIntervalHours := 1; SyncStartDaysAgo := 7; LogLevel := "info";
     stateFilePath := "/data/sync_state.json"; bankIntegrationID := "bi-7";
     mercuryAccounts := accts |}.

(** Every account returns both sample transactions. *)
Definition fetch_both (a : MercuryAccount) : string + list MercuryTransaction :=
  inr [tx_credit; tx_debit].

(** Account A cannot be fetched; account B returns both transactions. *)
Definition fetch_A_fails (a : MercuryAccount) : string + list MercuryTransaction :=
  if bool_decide (acct_ID a = "acc-A") then inl "503 Service Unavailable"
  else inr [tx_credit; tx_debit].

Definition post_all_ok (tx : MercuryTransaction) : error := None.

(** The destination accepts the first transaction and rejects the second. *)
Definition post_second_fails (tx : MercuryTransaction) : error :=
  if bool_decide (tx_ID tx = "tx-2") then Some "422 Unprocessable Entity" else None.

Definition start_process : Process :=
  {| mem := ∅; disk := DiskAbsent; logs := []; clock := 0 |}.

(** Line 322 reads the clock 2 s into the iteration for the first sample
    transaction and 3 s into it for the second. *)
Definition stamp_after_post (tx : MercuryTransaction) : Z :=
  if bool_decide (tx_ID tx = "tx-1") then 2 * second_ns else 3 * second_ns.

Definition tick_of (f : MercuryAccount -> string + list MercuryTransaction)
    (p : MercuryTransaction -> error) (o : SaveOutcome) (d : Z) : Tick :=
  {| tick_fetch := f; tick_post := p; tick_stamp := stamp_after_post;
     tick_save := o; tick_duration := d |}.

Definition empty_config_json : ConfigJSON :=
  {| j_mercuryAPIKey := Some "mercury-key"; j_invoiceNinjaToken := Some "ninja-token";
     j_invoiceNinjaURL := Some "https://invoicing.example.com";
     j_invoiceNinjaBankProvider := None; j_syncIntervalHours := None;
     j_syncStartDaysAgo := None; j_logLevel := None |}.

(** [url.ParseRequestURI] accepts the absolute URL used here. *)
Definition accepts_url (u : string) : error := None.

(** A response with status 201 and an empty JSON object. *)
Definition created_response : Response :=
  {| resp_StatusCode := 201; resp_Body := "{}"; resp_ReadError := None |}.

Definition ok_response : Response :=
  {| resp_StatusCode := 200; resp_Body := "{}"; resp_ReadError := None |}.

(** A client that answers every request with [ok_response]. *)
Definition do_ok (req : Request) : string + Response := inr ok_response.

(** Decoders standing for the two responses of the startup. *)
Definition decode_integrations (body : string) : string + list BankIntegration :=
  inr [{| ig_ID := "bi-3"; ig_ProviderName := "Plaid" |};
       {| ig_ID := "bi-7"; ig_ProviderName := "Mercury" |}].

Definition decode_accounts (body : string) : string + list MercuryAccount :=
  inr [acct_A].

(** An encoder that always succeeds. *)
Definition marshal_any (v : GoValue) : string + string := inr "{}".

(** A configuration file without an Invoice Ninja URL. *)
Definition config_json_no_url : ConfigJSON :=
  {| j_mercuryAPIKey := Some "mercury-key"; j_invoiceNinjaToken := Some "ninja-token";
     j_invoiceNinjaURL := None; j_invoiceNinjaBankProvider := None;
     j_syncIntervalHours := Some 6; j_syncStartDaysAgo := None; j_logLevel := None |}.

(* ================================================================== *)
(** * Properties *)

(* ------------------------------------------------------------------ *)
(** ** The pruning loop *)

Lemma prune_fold_lookup (c : Z) (xs : list (string * Z)) (m : Ledger) (k : string) :
  foldr (prune_step c) m xs !! k =
  if existsb (fun kv => bool_decide (kv.1 = k) && Z.ltb kv.2 c) xs
  then None else m !! k.
Proof.
  induction xs as [|[k' t] xs IH]; [done|].
  cbn [foldr existsb]. unfold prune_step at 1. cbn [fst snd].
  destruct (Z.ltb t c) eqn:Ht.
  - rewrite lookup_delete. rewrite andb_true_r.
    case_bool_decide; subst.
    + by rewrite decide_True.
    + rewrite decide_False by done. rewrite IH. done.
  - rewrite andb_false_r. exact IH.
Qed.

Lemma prune_lookup (now : Z) (l : Ledger) (k : string) :
  prune now l !! k =
  match l !! k with
  | Some t => if Z.ltb t (prune_cutoff now) then None else Some t
  | None => None
  end.
Proof.
  unfold prune. rewrite prune_fold_lookup.
  destruct (existsb _ _) eqn:He.
  - apply existsb_exists in He as [[k' t'] [Hin Hp]].
    apply andb_true_iff in Hp as [Hk Ht]. simpl in *.
    apply bool_decide_eq_true in Hk. subst k'.
    apply list_elem_of_In, elem_of_map_to_list in Hin. rewrite Hin, Ht. done.
  - destruct (l !! k) as [t|] eqn:Hl; [|done].
    destruct (Z.ltb t (prune_cutoff now)) eqn:Ht; [|done].
    assert (Hin : In (k, t) (map_to_list l))
      by (apply list_elem_of_In, elem_of_map_to_list; done).
    assert (existsb (fun kv => bool_decide (kv.1 = k) && Z.ltb kv.2 (prune_cutoff now))
              (map_to_list l) = true) as Hc.
    { apply existsb_exists. exists (k, t). split; [done|]. simpl.
      rewrite bool_decide_eq_true_2 by done. done. }
    congruence.
Qed.

Lemma prune_keeps_fresh (now : Z) (l : Ledger) (k : string) (t : Z) :
  l !! k = Some t -> prune_cutoff now <= t -> prune now l !! k = Some t.
Proof.
  intros Hl Ht. rewrite prune_lookup, Hl.
  destruct (Z.ltb_spec t (prune_cutoff now)); [lia|done].
Qed.

Lemma prune_subset (now : Z) (l : Ledger) (k : string) :
  l !! k = None -> prune now l !! k = None.
Proof. intros Hl. by rewrite prune_lookup, Hl. Qed.

(** C4.  Pruning is exactly the filter that keeps the entries whose
    [firstSeenAt] is not before [now - 7 days]: an entry strictly older than
    the cutoff is gone, an entry at or after the cutoff is kept unchanged,
    and nothing else is touched. *)
Theorem prune_is_retention_filter (now : Z) (l : Ledger) :
  prune now l = filter (fun kv => prune_cutoff now <= kv.2) l /\
  (forall k, prune now l !! k =
     match l !! k with
     | Some t => if Z.ltb t (add_days now (- retention_days)) then None else Some t
     | None => None
     end).
Proof.
  split; [|intros k; apply prune_lookup].
  apply map_eq. intros k. rewrite prune_lookup, map_lookup_filter.
  destruct (l !! k) as [t|]; simpl; [|done].
  destruct (Z.ltb_spec t (prune_cutoff now)).
  - rewrite option_guard_False; [done|simpl; lia].
  - rewrite option_guard_True; [done|simpl; lia].
Qed.

(* ------------------------------------------------------------------ *)
(** ** Invariants of the transaction and account loops *)

Lemma count_posts_app (id : string) (e1 e2 : list Event) :
  count_posts id (e1 ++ e2) = (count_posts id e1 + count_posts id e2)%nat.
Proof. induction e1 as [|ev e1 IH]; simpl; [done|]. rewrite IH. lia. Qed.

Lemma is_post_of_tx (tx : MercuryTransaction) (ok : bool) :
  is_post_of (tx_ID tx) (EvPost tx ok) = true.
Proof. simpl. by apply bool_decide_eq_true_2. Qed.

(** What one loop run guarantees about a transaction ID: recorded IDs stay
    recorded; an ID recorded at the start is never posted; it is posted at
    most once; once posted without the loop failing it is recorded; and
    every successful post is recorded. *)
Definition loop_inv (st : Ledger) (res : Ledger * list Event * error) : Prop :=
  let '(st', ev, r) := res in
  (forall k, is_Some (st !! k) -> is_Some (st' !! k)) /\
  (forall id, is_Some (st !! id) -> count_posts id ev = 0%nat) /\
  (forall id, (count_posts id ev <= 1)%nat) /\
  (forall id, r = None -> count_posts id ev <> 0%nat -> is_Some (st' !! id)) /\
  (forall tx, In (EvPost tx true) ev -> is_Some (st' !! tx_ID tx)).

Lemma process_txs_inv (env : Env) (txs : list MercuryTransaction) (st : Ledger) :
  loop_inv st (process_txs env txs st).
Proof.
  revert st. induction txs as [|tx rest IH]; intros st; simpl.
  { repeat split; simpl; try done. intros; lia. }
  destruct (st !! tx_ID tx) as [t0|] eqn:Hin.
  - specialize (IH st).
    destruct (process_txs env rest st) as [[st' ev] r].
    destruct IH as (Hmono & Hold & Hle & Hrec & Hok).
    repeat split; simpl.
    + exact Hmono.
    + exact Hold.
    + exact Hle.
    + exact Hrec.
    + intros tx' [H|H]; [discriminate|auto].
  - destruct (env_post env tx) as [e|] eqn:Hpost.
    + repeat split; simpl.
      * done.
      * intros id Hid. destruct (bool_decide_reflect (tx_ID tx = id)); subst.
        { rewrite Hin in Hid. by destruct Hid. }
        done.
      * intros id. destruct (bool_decide (tx_ID tx = id)); simpl; lia.
      * discriminate.
      * intros tx' [H|[]]. discriminate.
    + specialize (IH (<[tx_ID tx := env_stamp env tx]> st)).
      destruct (process_txs env rest _) as [[st' ev] r].
      destruct IH as (Hmono & Hold & Hle & Hrec & Hok).
      assert (Hself : is_Some (st' !! tx_ID tx)).
      { apply Hmono. rewrite lookup_insert_eq. eauto. }
      repeat split.
      * intros k Hk. apply Hmono. rewrite lookup_insert.
        case_decide; [eauto|done].
      * intros id Hid. cbn [count_posts is_post_of].
        destruct (bool_decide_reflect (tx_ID tx = id)); subst.
        { rewrite Hin in Hid. by destruct Hid. }
        apply Hold. rewrite lookup_insert_ne by done. done.
      * intros id. cbn [count_posts is_post_of].
        destruct (bool_decide_reflect (tx_ID tx = id)); subst.
        { rewrite (Hold (tx_ID tx)); [lia|]. rewrite lookup_insert_eq. eauto. }
        apply (Hle id).
      * intros id Hr Hc. cbn [count_posts is_post_of] in Hc.
        destruct (bool_decide_reflect (tx_ID tx = id)); subst; [done|].
        apply Hrec; [done|lia].
      * intros tx' [H|H]; [|auto].
        injection H as ->. done.
Qed.

Lemma process_accounts_inv (env : Env) (accts : list MercuryAccount) (st : Ledger) :
  loop_inv st (process_accounts env accts st).
Proof.
  revert st. induction accts as [|a rest IH]; intros st; simpl.
  { repeat split; simpl; try done. intros; lia. }
  destruct (env_fetch env a) as [e|txs].
  - specialize (IH st).
    destruct (process_accounts env rest st) as [[st' ev] r].
    destruct IH as (Hmono & Hold & Hle & Hrec & Hok).
    repeat split; simpl; auto.
    intros tx [H|H]; [discriminate|auto].
  - pose proof (process_txs_inv env txs st) as Htx.
    destruct (process_txs env txs st) as [[st1 ev1] [e|]].
    + exact Htx.
    + specialize (IH st1).
      destruct (process_accounts env rest st1) as [[st2 ev2] r].
      destruct Htx as (Hmono1 & Hold1 & Hle1 & Hrec1 & Hok1).
      destruct IH as (Hmono2 & Hold2 & Hle2 & Hrec2 & Hok2).
      repeat split.
      * auto.
      * intros id Hid. rewrite count_posts_app, Hold1, Hold2; auto.
      * intros id. rewrite count_posts_app.
        destruct (count_posts id ev1) eqn:Hc1.
        { simpl. apply Hle2. }
        rewrite Hold2; [pose proof (Hle1 id); lia|].
        apply Hrec1; [done|lia].
      * intros id Hr Hc. rewrite count_posts_app in Hc.
        destruct (count_posts id ev2) eqn:Hc2.
        { apply Hmono2, Hrec1; [done|lia]. }
        apply Hrec2; [done|lia].
      * intros tx Hin. apply in_app_or in Hin as [Hin|Hin]; auto.
Qed.

Lemma syncTransactions_inv (env : Env) (cfg : Config) (l : Ledger) :
  loop_inv (prune (env_now env) l) (syncTransactions env cfg l).
Proof. apply process_accounts_inv. Qed.

Lemma count_posts_In (tx : MercuryTransaction) (ok : bool) (ev : list Event) :
  In (EvPost tx ok) ev -> (1 <= count_posts (tx_ID tx) ev)%nat.
Proof.
  induction ev as [|e ev IH]; simpl; [done|].
  intros [->|H].
  - rewrite is_post_of_tx. lia.
  - specialize (IH H). lia.
Qed.

(** C10.  Within one cycle at most one post request is issued per
    transaction ID, whatever the fetched lists contain (the same ID may be
    returned several times, also by different accounts). *)
Theorem at_most_one_post_per_id (env : Env) (cfg : Config) (l : Ledger) (id : string) :
  (count_posts id (syncTransactions env cfg l).1.2 <= 1)%nat.
Proof.
  pose proof (syncTransactions_inv env cfg l) as H.
  destruct (syncTransactions env cfg l) as [[l' ev] r].
  destruct H as (_ & _ & Hle & _). apply Hle.
Qed.

(** C2.  For a transaction whose ID is not in the ledger at the start of the
    cycle, if its post request succeeds then after the cycle the in-memory
    ledger holds its ID, and exactly one post request was issued for that ID
    in the cycle. *)
Theorem at_least_once_delivery (env : Env) (cfg : Config) (l : Ledger)
    (tx : MercuryTransaction)
    (Hnew : l !! tx_ID tx = None)
    (Hposted : In (EvPost tx true) (syncTransactions env cfg l).1.2) :
  is_Some ((syncTransactions env cfg l).1.1 !! tx_ID tx) /\
  count_posts (tx_ID tx) (syncTransactions env cfg l).1.2 = 1%nat.
Proof.
  pose proof (syncTransactions_inv env cfg l) as H.
  destruct (syncTransactions env cfg l) as [[l' ev] r]. simpl in *.
  destruct H as (_ & _ & Hle & _ & Hok).
  split; [auto|].
  pose proof (count_posts_In tx true ev Hposted).
  specialize (Hle (tx_ID tx)). lia.
Qed.

Lemma at_least_once_delivery_witness :
  let env := {| env_now := 1000; env_fetch := fetch_both; env_post := post_all_ok;
                env_stamp := fun tx => 1000 + stamp_after_post tx |} in
  let cfg := sample_config [acct_A] in
  (∅ : Ledger) !! tx_ID tx_credit = None /\
  In (EvPost tx_credit true) (syncTransactions env cfg ∅).1.2 /\
  is_Some ((syncTransactions env cfg ∅).1.1 !! tx_ID tx_credit) /\
  count_posts (tx_ID tx_credit) (syncTransactions env cfg ∅).1.2 = 1%nat.
Proof.
  intros env cfg.
  assert (Hin : In (EvPost tx_credit true) (syncTransactions env cfg ∅).1.2)
    by (vm_compute; left; reflexivity).
  split; [reflexivity|]. split; [exact Hin|].
  apply (at_least_once_delivery env cfg ∅ tx_credit); [reflexivity|exact Hin].
Defined.

(* ------------------------------------------------------------------ *)
(** ** Already-recorded transactions *)








(* ------------------------------------------------------------------ *)
(** ** Fetch failures are per account *)

Lemma process_accounts_app (env : Env) (xs ys : list MercuryAccount) (st : Ledger) :
  process_accounts env (xs ++ ys) st =
  match process_accounts env xs st with
  | (l1, ev1, Some err) => (l1, ev1, Some err)
  | (l1, ev1, None) =>
      let '(l2, ev2, r) := process_accounts env ys l1 in (l2, ev1 ++ ev2, r)
  end.
Proof.
  revert st. induction xs as [|a xs IH]; intros st; simpl.
  { by destruct (process_accounts env ys st) as [[??]?]. }
  destruct (env_fetch env a) as [e|txs].
  - rewrite IH.
    destruct (process_accounts env xs st) as [[l1 ev1] [err|]]; [done|].
    by destruct (process_accounts env ys l1) as [[??]?].
  - destruct (process_txs env txs st) as [[st1 ev1] [err|]]; [done|].
    rewrite IH.
    destruct (process_accounts env xs st1) as [[l1 ev1'] [err|]]; [done|].
    destruct (process_accounts env ys l1) as [[??]?]. by rewrite app_assoc.
Qed.

(** C8.  When the fetch for account [a] fails, the cycle goes on: up to [a]
    it is the same run as without [a]; at [a] it logs the fetch error; and
    the accounts after [a] are processed exactly as in the cycle where [a]
    is absent from the account list (same ledger, same events, same
    result). *)
Theorem per_account_isolation (env : Env) (cfg : Config) (l : Ledger)
    (xs ys : list MercuryAccount) (a : MercuryAccount) (e : string)
    (Haccts : mercuryAccounts cfg = xs ++ a :: ys)
    (Hfail : env_fetch env a = inl e) :
  syncTransactions env cfg l =
    match process_accounts env xs (prune (env_now env) l) with
    | (l1, ev1, Some err) => (l1, ev1, Some err)
    | (l1, ev1, None) =>
        let '(l2, ev2, r) := process_accounts env ys l1 in
        (l2, ev1 ++ EvFetchError a e :: ev2, r)
    end /\
  syncTransactions env (with_accounts (xs ++ ys) cfg) l =
    match process_accounts env xs (prune (env_now env) l) with
    | (l1, ev1, Some err) => (l1, ev1, Some err)
    | (l1, ev1, None) =>
        let '(l2, ev2, r) := process_accounts env ys l1 in
        (l2, ev1 ++ ev2, r)
    end.
Proof.
  unfold syncTransactions. rewrite Haccts. simpl.
  rewrite !process_accounts_app.
  destruct (process_accounts env xs _) as [[l1 ev1] [err|]]; [done|].
  simpl. rewrite Hfail.
  destruct (process_accounts env ys l1) as [[l2 ev2] r]. done.
Qed.

Lemma per_account_isolation_witness :
  let env := {| env_now := 1000; env_fetch := fetch_A_fails; env_post := post_all_ok;
                env_stamp := fun tx => 1000 + stamp_after_post tx |} in
  let cfg := sample_config [acct_A; acct_B] in
  mercuryAccounts cfg = [] ++ acct_A :: [acct_B] /\
  env_fetch env acct_A = inl "503 Service Unavailable" /\
  post_requests (syncTransactions env cfg ∅).1.2 = [tx_credit; tx_debit] /\
  (syncTransactions env cfg ∅ =
    match process_accounts env [] (prune (env_now env) ∅) with
    | (l1, ev1, Some err) => (l1, ev1, Some err)
    | (l1, ev1, None) =>
        let '(l2, ev2, r) := process_accounts env [acct_B] l1 in
        (l2, ev1 ++ EvFetchError acct_A "503 Service Unavailable" :: ev2, r)
    end /\
  syncTransactions env (with_accounts ([] ++ [acct_B]) cfg) ∅ =
    match process_accounts env [] (prune (env_now env) ∅) with
    | (l1, ev1, Some err) => (l1, ev1, Some err)
    | (l1, ev1, None) =>
        let '(l2, ev2, r) := process_accounts env [acct_B] l1 in
        (l2, ev1 ++ ev2, r)
    end).
Proof.
  intros env cfg.
  split; [reflexivity|]. split; [reflexivity|]. split; [vm_compute; reflexivity|].
  apply (per_account_isolation env cfg ∅ [] [acct_B] acct_A "503 Service Unavailable");
    reflexivity.
Defined.

Lemma posted_stamp_app (env : Env) (id : string) (e1 e2 : list Event) :
  posted_stamp env id (e1 ++ e2) =
  match posted_stamp env id e1 with
  | Some t => Some t
  | None => posted_stamp env id e2
  end.
Proof.
  induction e1 as [|ev e1 IH]; simpl; [done|].
  destruct ev as [a e|tx|tx [|]]; try exact IH.
  case_bool_decide; [done|exact IH].
Qed.

Lemma process_txs_ledger (env : Env) (txs : list MercuryTransaction) (st : Ledger)
    (k : string) :
  (process_txs env txs st).1.1 !! k =
  match st !! k with
  | Some t => Some t
  | None => posted_stamp env k (process_txs env txs st).1.2
  end.
Proof.
  revert st. induction txs as [|tx rest IH]; intros st; simpl.
  { by destruct (st !! k). }
  destruct (st !! tx_ID tx) as [t0|] eqn:Hin.
  - specialize (IH st). destruct (process_txs env rest st) as [[st' ev] r].
    simpl in *. exact IH.
  - destruct (env_post env tx) as [e|]; simpl.
    + by destruct (st !! k).
    + specialize (IH (<[tx_ID tx := env_stamp env tx]> st)).
      destruct (process_txs env rest _) as [[st' ev] r]. simpl in *.
      rewrite IH.
      destruct (bool_decide_reflect (tx_ID tx = k)); subst.
      * by rewrite lookup_insert_eq, Hin.
      * by rewrite lookup_insert_ne.
Qed.

Lemma process_accounts_ledger (env : Env) (accts : list MercuryAccount) (st : Ledger)
    (k : string) :
  (process_accounts env accts st).1.1 !! k =
  match st !! k with
  | Some t => Some t
  | None => posted_stamp env k (process_accounts env accts st).1.2
  end.
Proof.
  revert st. induction accts as [|a rest IH]; intros st; simpl.
  { by destruct (st !! k). }
  destruct (env_fetch env a) as [e|txs].
  - specialize (IH st). destruct (process_accounts env rest st) as [[st' ev] r].
    simpl in *. exact IH.
  - pose proof (process_txs_ledger env txs st k) as Htx.
    destruct (process_txs env txs st) as [[st1 ev1] [e|]]; [exact Htx|].
    specialize (IH st1). destruct (process_accounts env rest st1) as [[st2 ev2] r].
    simpl in *. rewrite IH, posted_stamp_app, Htx.
    destruct (st !! k); [done|]. by destruct (posted_stamp env k ev1).
Qed.

Lemma sync_lookup (env : Env) (cfg : Config) (l : Ledger) (k : string) :
  (syncTransactions env cfg l).1.1 !! k =
  match prune (env_now env) l !! k with
  | Some t => Some t
  | None => posted_stamp env k (syncTransactions env cfg l).1.2
  end.
Proof. apply process_accounts_ledger. Qed.

Lemma posted_stamp_Some (env : Env) (id : string) (evs : list Event) (t : Z) :
  posted_stamp env id evs = Some t ->
  exists tx, In (EvPost tx true) evs /\ tx_ID tx = id /\ t = env_stamp env tx.
Proof.
  induction evs as [|ev evs IH]; simpl; [discriminate|].
  destruct ev as [a e|tx|tx [|]]; try (intros H; destruct (IH H) as (tx' & ? & ? & ?);
                                         exists tx'; auto; fail).
  case_bool_decide as Hid.
  - intros [= <-]. exists tx. auto.
  - intros H. destruct (IH H) as (tx' & ? & ? & ?). exists tx'. auto.
Qed.

Lemma two_posts (a b : MercuryTransaction) (oka okb : bool) (evs : list Event) :
  In (EvPost a oka) evs -> In (EvPost b okb) evs -> oka <> okb ->
  tx_ID a = tx_ID b -> (2 <= count_posts (tx_ID a) evs)%nat.
Proof.
  intros Ha Hb Hne Hid. induction evs as [|ev evs IH]; [done|].
  destruct Ha as [Ha|Ha]; destruct Hb as [Hb|Hb].
  - subst ev. injection Hb as _ Hb. congruence.
  - subst ev. pose proof (count_posts_In b okb evs Hb). cbn [count_posts].
    rewrite is_post_of_tx. rewrite Hid. lia.
  - subst ev. pose proof (count_posts_In a oka evs Ha). cbn [count_posts].
    rewrite Hid, is_post_of_tx. rewrite <- Hid. lia.
  - specialize (IH Ha Hb). cbn [count_posts]. lia.
Qed.

Lemma post_requests_count (tx : MercuryTransaction) (evs : list Event) :
  In tx (post_requests evs) -> (1 <= count_posts (tx_ID tx) evs)%nat.
Proof.
  induction evs as [|ev evs IH]; simpl; [done|].
  destruct ev as [a e|tx'|tx' ok]; cbn [post_requests count_posts].
  - intros H. specialize (IH H). lia.
  - intros H. specialize (IH H). lia.
  - intros [->|H]; [rewrite is_post_of_tx; lia|]. specialize (IH H). lia.
Qed.

Lemma posted_stamp_unique (env : Env) (tx : MercuryTransaction) (evs : list Event) :
  In (EvPost tx true) evs -> (count_posts (tx_ID tx) evs <= 1)%nat ->
  posted_stamp env (tx_ID tx) evs = Some (env_stamp env tx).
Proof.
  induction evs as [|ev evs IH]; [done|].
  intros [Hev|Hin] Hle.
  - subst ev. cbn [posted_stamp]. by rewrite bool_decide_eq_true_2.
  - pose proof (count_posts_In tx true evs Hin) as H2.
    cbn [count_posts] in Hle.
    destruct ev as [a e|tx'|tx' ok]; cbn [posted_stamp is_post_of] in *;
      try (apply IH; auto; lia).
    destruct (bool_decide (tx_ID tx' = tx_ID tx)); [lia|].
    destruct ok; apply IH; auto; lia.
Qed.

(** The ledger after a cycle, for an ID posted successfully in it: the
    clock reading taken after that post. *)
Lemma sync_posted_entry (env : Env) (cfg : Config) (l : Ledger) (tx : MercuryTransaction) :
  In (EvPost tx true) (syncTransactions env cfg l).1.2 ->
  (syncTransactions env cfg l).1.1 !! tx_ID tx = Some (env_stamp env tx).
Proof.
  intros Hin. rewrite sync_lookup.
  pose proof (syncTransactions_inv env cfg l) as Hinv.
  destruct (syncTransactions env cfg l) as [[l' evs] r]. simpl in *.
  destruct Hinv as (_ & Hold & Hle & _ & _).
  pose proof (count_posts_In tx true evs Hin) as H1.
  destruct (prune (env_now env) l !! tx_ID tx) eqn:Hp.
  { rewrite Hold in H1; [lia|]. rewrite Hp; eauto. }
  apply posted_stamp_unique; auto.
Qed.

(** The ledger after a cycle, for an ID whose post failed in it: no entry. *)
Lemma sync_failed_entry (env : Env) (cfg : Config) (l : Ledger) (tx : MercuryTransaction) :
  In (EvPost tx false) (syncTransactions env cfg l).1.2 ->
  (syncTransactions env cfg l).1.1 !! tx_ID tx = None.
Proof.
  intros Hin. rewrite sync_lookup.
  pose proof (syncTransactions_inv env cfg l) as Hinv.
  destruct (syncTransactions env cfg l) as [[l' evs] r]. simpl in *.
  destruct Hinv as (_ & Hold & Hle & _ & _).
  pose proof (count_posts_In tx false evs Hin) as H1.
  destruct (prune (env_now env) l !! tx_ID tx) eqn:Hp.
  { rewrite Hold in H1; [lia|]. rewrite Hp; eauto. }
  destruct (posted_stamp env (tx_ID tx) evs) as [t|] eqn:Hs; [|done].
  apply posted_stamp_Some in Hs as (tx' & Hin' & Hid & _).
  pose proof (two_posts tx' tx true false evs Hin' Hin ltac:(discriminate) Hid).
  specialize (Hle (tx_ID tx')). lia.
Qed.

(** No post request is issued in a cycle for an ID the pruned ledger holds. *)
Lemma sync_no_post_of_kept (env : Env) (cfg : Config) (l : Ledger) (tx : MercuryTransaction) :
  is_Some (prune (env_now env) l !! tx_ID tx) ->
  ~ In tx (post_requests (syncTransactions env cfg l).1.2).
Proof.
  intros Hk Hin. pose proof (syncTransactions_inv env cfg l) as Hinv.
  destruct (syncTransactions env cfg l) as [[l' evs] r]. simpl in *.
  destruct Hinv as (_ & Hold & _ & _ & _).
  apply post_requests_count in Hin. rewrite Hold in Hin by exact Hk. lia.
Qed.

Lemma first_event_for_app (id : string) (e1 e2 : list Event) :
  first_event_for id (e1 ++ e2) =
  match first_event_for id e1 with
  | Some ev => Some ev
  | None => first_event_for id e2
  end.
Proof.
  induction e1 as [|ev e1 IH]; simpl; [done|]. by case_bool_decide.
Qed.

Lemma process_txs_first_event (env : Env) (txs : list MercuryTransaction) (st : Ledger)
    (id : string) :
  st !! id = None ->
  (forall ev, first_event_for id (process_txs env txs st).1.2 = Some ev ->
     exists tx ok, ev = EvPost tx ok) /\
  (first_event_for id (process_txs env txs st).1.2 = None ->
     (process_txs env txs st).1.1 !! id = None).
Proof.
  revert st. induction txs as [|tx rest IH]; intros st Hst; simpl.
  { split; [discriminate|done]. }
  destruct (st !! tx_ID tx) as [t0|] eqn:Hin.
  - assert (Hne : tx_ID tx <> id) by (intros <-; congruence).
    specialize (IH st Hst). destruct (process_txs env rest st) as [[st' ev] r].
    simpl in *. rewrite bool_decide_eq_false_2 by congruence. exact IH.
  - destruct (env_post env tx) as [e|]; simpl.
    + case_bool_decide as Hid.
      * split; [|discriminate]. intros ev [= <-]. eauto.
      * split; [discriminate|auto].
    + destruct (decide (tx_ID tx = id)) as [Hid|Hid].
      * specialize (IH (<[tx_ID tx := env_stamp env tx]> st)).
        destruct (process_txs env rest _) as [[st' ev] r]. simpl.
        rewrite bool_decide_eq_true_2 by congruence.
        split; [|discriminate]. intros ev' [= <-]. eauto.
      * specialize (IH (<[tx_ID tx := env_stamp env tx]> st)).
        rewrite lookup_insert_ne in IH by done. specialize (IH Hst).
        destruct (process_txs env rest _) as [[st' ev] r]. simpl in *.
        rewrite bool_decide_eq_false_2 by congruence. exact IH.
Qed.

(** Once a cycle starts without an entry for [id], the first event of the
    cycle that concerns [id], if any, is a post request for it. *)
Lemma process_accounts_first_event (env : Env) (accts : list MercuryAccount) (st : Ledger)
    (id : string) :
  st !! id = None ->
  forall ev, first_event_for id (process_accounts env accts st).1.2 = Some ev ->
    exists tx ok, ev = EvPost tx ok.
Proof.
  revert st. induction accts as [|a rest IH]; intros st Hst; simpl; [discriminate|].
  destruct (env_fetch env a) as [e|txs].
  - specialize (IH st Hst). destruct (process_accounts env rest st) as [[st' ev] r].
    simpl in *. exact IH.
  - pose proof (process_txs_first_event env txs st id Hst) as [Hf Hn].
    destruct (process_txs env txs st) as [[st1 ev1] [e|]]; simpl in *; [exact Hf|].
    specialize (IH st1).
    destruct (process_accounts env rest st1) as [[st2 ev2] r]. simpl in *.
    intros ev. rewrite first_event_for_app.
    destruct (first_event_for id ev1) as [ev'|] eqn:H1.
    + intros [= <-]. by apply Hf.
    + apply IH. by apply Hn.
Qed.

(* ------------------------------------------------------------------ *)
(** ** Failed cycles and failed saves in the main loop *)

(** C1 (as amended).  A cycle in which the post of [tx1] succeeded and the
    post of [tx2] failed (on any accounts): the state file is not touched and
    the sync error is logged, but the in-memory ledger is not discarded: it
    holds [tx1]'s ID, stamped with the clock reading taken after its post,
    and not [tx2]'s.  The next cycle runs on that in-memory ledger: while the
    entry of [tx1] is within the retention window at its start, it issues no
    post for [tx1]'s ID; the first time it meets [tx2]'s ID it posts it
    again. *)
Theorem aborted_cycle_keeps_memory (cfg : Config) (t : Tick) (p : Process)
    (tx1 tx2 : MercuryTransaction) (e : string)
    (Hfail : (syncTransactions (tick_env t (clock p)) cfg (mem p)).2 = Some e)
    (Hok1 : In (EvPost tx1 true) (syncTransactions (tick_env t (clock p)) cfg (mem p)).1.2)
    (Hko2 : In (EvPost tx2 false) (syncTransactions (tick_env t (clock p)) cfg (mem p)).1.2) :
  disk (main_iteration cfg t p) = disk p /\
  logs (main_iteration cfg t p) = logs p ++ [LogSyncError e] /\
  mem (main_iteration cfg t p) !! tx_ID tx1 = Some (clock p + tick_stamp t tx1) /\
  mem (main_iteration cfg t p) !! tx_ID tx2 = None /\
  (forall t2 tx, tx_ID tx = tx_ID tx1 ->
     prune_cutoff (clock (main_iteration cfg t p)) <= clock p + tick_stamp t tx1 ->
     ~ In tx (post_requests
                (syncTransactions (tick_env t2 (clock (main_iteration cfg t p))) cfg
                   (mem (main_iteration cfg t p))).1.2)) /\
  (forall t2 ev,
     first_event_for (tx_ID tx2)
       (syncTransactions (tick_env t2 (clock (main_iteration cfg t p))) cfg
          (mem (main_iteration cfg t p))).1.2 = Some ev ->
     exists tx ok, ev = EvPost tx ok).
Proof.
  pose proof (sync_posted_entry _ _ _ _ Hok1) as H1.
  pose proof (sync_failed_entry _ _ _ _ Hko2) as H2.
  assert (Hm : mem (main_iteration cfg t p) =
               (syncTransactions (tick_env t (clock p)) cfg (mem p)).1.1 /\
               disk (main_iteration cfg t p) = disk p /\
               logs (main_iteration cfg t p) = logs p ++ [LogSyncError e]).
  { unfold main_iteration, main_body.
    destruct (syncTransactions (tick_env t (clock p)) cfg (mem p)) as [[st' evs] r].
    simpl in Hfail. subst r. done. }
  destruct Hm as (Hm & Hd & Hl).
  cbn [env_stamp tick_env] in H1.
  rewrite <- Hm in H1, H2.
  split; [done|]. split; [done|]. split; [done|]. split; [done|]. split.
  - intros t2 tx Hid Hfresh. apply sync_no_post_of_kept.
    cbn [env_now tick_env]. rewrite Hid.
    rewrite (prune_keeps_fresh _ _ _ _ H1 Hfresh). eauto.
  - intros t2 ev. apply process_accounts_first_event.
    by apply prune_subset.
Qed.

Lemma aborted_cycle_keeps_memory_witness :
  let cfg := sample_config [acct_A; acct_B] in
  let t := tick_of fetch_both post_second_fails SaveOk (600 * second_ns) in
  let p := start_process in
  disk (main_iteration cfg t p) = disk p /\
  logs (main_iteration cfg t p) = logs p ++ [LogSyncError "422 Unprocessable Entity"] /\
  mem (main_iteration cfg t p) !! tx_ID tx_credit = Some (clock p + tick_stamp t tx_credit) /\
  mem (main_iteration cfg t p) !! tx_ID tx_debit = None /\
  (forall t2 tx, tx_ID tx = tx_ID tx_credit ->
     prune_cutoff (clock (main_iteration cfg t p)) <= clock p + tick_stamp t tx_credit ->
     ~ In tx (post_requests
                (syncTransactions (tick_env t2 (clock (main_iteration cfg t p))) cfg
                   (mem (main_iteration cfg t p))).1.2)) /\
  (forall t2 ev,
     first_event_for (tx_ID tx_debit)
       (syncTransactions (tick_env t2 (clock (main_iteration cfg t p))) cfg
          (mem (main_iteration cfg t p))).1.2 = Some ev ->
     exists tx ok, ev = EvPost tx ok).
Proof.
  intros cfg t p.
  apply (aborted_cycle_keeps_memory cfg t p tx_credit tx_debit "422 Unprocessable Entity").
  - vm_compute. reflexivity.
  - vm_compute. left. reflexivity.
  - vm_compute. right. left. reflexivity.
Defined.

(** C1 as stated fails: after the aborted cycle the in-memory ledger still
    holds the first ID (nothing is discarded), and the next cycle posts only
    the second transaction. *)
Lemma abort_atomicity_counterexample :
  let cfg := sample_config [acct_A] in
  let t := tick_of fetch_both post_second_fails SaveOk (600 * second_ns) in
  let p1 := main_iteration cfg t start_process in
  disk p1 = DiskAbsent /\
  mem p1 !! "tx-1" = Some (2 * second_ns) /\
  post_requests (syncTransactions (tick_env t (clock p1)) cfg (mem p1)).1.2 = [tx_debit].
Proof. vm_compute. repeat split. Qed.




(* ------------------------------------------------------------------ *)
(** ** Scheduling *)

Lemma wrap_int64_small (x : Z) : - 2 ^ 63 <= x < 2 ^ 63 -> wrap_int64 x = x.
Proof.
  intros Hx. unfold wrap_int64. rewrite Z.mod_small; [lia|].
  change (2 ^ 64) with (2 ^ 63 + 2 ^ 63). lia.
Qed.


(** C6 (as amended).  Whatever the outcome of a cycle, the loop goes on to
    another cycle (a run over [n] iterations visits [n + 1] cycle starts),
    and the next cycle starts when the previous one has ended (its start plus
    the time taken by sync and save) plus the configured interval as a Go
    [time.Duration] (no wait when it is not positive).  That duration is the
    interval in hours times one hour for intervals up to 2562047 hours in
    absolute value; beyond, the [int64] product wraps (2562048 hours gives a
    negative duration: no wait).  A failed sync or save is logged. *)
Theorem next_cycle_after_completion (cfg : Config) :
  (forall t p, clock (main_iteration cfg t p) =
     clock p + tick_duration t + Z.max 0 (interval_ns cfg)) /\
  (-2562047 <= SyncIntervalHours cfg <= 2562047 ->
     interval_ns cfg = SyncIntervalHours cfg * hour_ns) /\
  (SyncIntervalHours cfg = 2562048 -> interval_ns cfg < 0) /\
  (forall t p, logs (main_iteration cfg t p) = logs p ++
     let '(st', _, r) := syncTransactions (tick_env t (clock p)) cfg (mem p) in
     match r with
     | Some e => [LogSyncError e]
     | None => match (saveState (tick_save t) st' (disk p)).2 with
               | Some e => [LogSaveError e]
               | None => []
               end
     end) /\
  (forall ticks p, length (run cfg ticks p) = S (length ticks)).
Proof.
  split; [|split; [|split; [|split]]].
  - intros t p. unfold main_iteration, next_start. simpl. lia.
  - intros Hh. unfold interval_ns. apply wrap_int64_small.
    unfold hour_ns, second_ns. change (2 ^ 63) with 9223372036854775808.
    change (10 ^ 9) with 1000000000. lia.
  - intros Hh. unfold interval_ns. rewrite Hh. vm_compute. reflexivity.
  - intros t p. unfold main_iteration, main_body.
    destruct (syncTransactions _ cfg (mem p)) as [[st' ev] [e|]]; [done|].
    destruct (saveState (tick_save t) st' (disk p)) as [d [e|]]; done.
  - intros ticks. induction ticks as [|t ts IH]; intros p; simpl; [done|].
    by rewrite IH.
Qed.

(** C6 as stated fails: with a one-hour interval and a cycle that takes ten
    minutes, the next cycle starts 70 minutes after the previous start. *)
Lemma cadence_counterexample :
  let cfg := sample_config [acct_A] in
  let t := tick_of fetch_both post_all_ok SaveOk (600 * second_ns) in
  clock (main_iteration cfg t start_process) - clock start_process = 4200 * second_ns /\
  clock (main_iteration cfg t start_process) - clock start_process
    <> SyncIntervalHours cfg * hour_ns.
Proof. vm_compute. split; [reflexivity|discriminate]. Qed.

(* ------------------------------------------------------------------ *)
(** ** Retention window against lookback window *)



(* ------------------------------------------------------------------ *)
(** ** The bank transaction request *)

(** The record built for +125.50 and -40.00 carries the intended mapping. *)
Example bank_tx_of_credit :
  bank_tx_of (sample_config []) tx_credit =
  {| bt_Amount := (12550 # 100)%Q; bt_Date := "2024-03-05";
     bt_Description := "Client payment"; bt_BankIntegrationID := "bi-7";
     bt_BaseType := "CREDIT" |}.
Proof. reflexivity. Qed.

Example bank_tx_of_debit :
  bank_tx_of (sample_config []) tx_debit =
  {| bt_Amount := (40 # 1)%Q; bt_Date := "2024-03-05";
     bt_Description := "Card fee"; bt_BankIntegrationID := "bi-7";
     bt_BaseType := "DEBIT" |}.
Proof. reflexivity. Qed.

(** C5 (code defect).  The record never leaves the process: whatever
    [json.Marshal] and the destination do, [createInvoiceNinjaTransaction]
    returns an error and issues no request, because [getRequest] hands the
    struct itself, not its JSON encoding, to [rh.NewRequest]. *)
Theorem bank_transaction_request_never_built
    (marshal : GoValue -> string + string) (send : Request -> error)
    (cfg : Config) (tx : MercuryTransaction) :
  (createInvoiceNinjaTransaction marshal send cfg tx).2 = [] /\
  is_Some (createInvoiceNinjaTransaction marshal send cfg tx).1.
Proof.
  unfold createInvoiceNinjaTransaction, getInvoiceNinjaRequest, getRequest.
  destruct (marshal _); simpl; eauto.
Qed.

(** The failing input of C5: the +125.50 transaction, with a working JSON
    encoder and a destination that would accept anything. *)
Example bank_transaction_failing_input :
  createInvoiceNinjaTransaction (fun _ => inr "{...}") (fun _ => None)
    (sample_config [acct_A]) tx_credit =
  (Some ("error creating request: POST https://invoicing.example.com/api/v1/"
         +:+ "bank_transactions: cannot handle type main.InvoiceNinjaBankTX"), []).
Proof. reflexivity. Qed.

(** Consequently, with the real adapter a cycle records no transaction: the
    first new transaction aborts it. *)
Lemma process_txs_no_success (env : Env) (txs : list MercuryTransaction) (st : Ledger) :
  (forall tx, is_Some (env_post env tx)) ->
  forall tx, ~ In (EvPost tx true) (process_txs env txs st).1.2.
Proof.
  intros Hpost. revert st. induction txs as [|x rest IH]; intros st tx; simpl; [intros []|].
  destruct (st !! tx_ID x).
  - specialize (IH st tx). destruct (process_txs env rest st) as [[??]?].
    simpl in *. intros [H|H]; [discriminate|done].
  - destruct (Hpost x) as [e He]. rewrite He. simpl. intros [H|[]]. discriminate.
Qed.

Lemma sync_with_adapter_records_nothing (marshal : GoValue -> string + string)
    (send : Request -> error) (now : Z)
    (fetch : MercuryAccount -> string + list MercuryTransaction)
    (stamp : MercuryTransaction -> Z)
    (cfg : Config) (l : Ledger) :
  let env := {| env_now := now; env_fetch := fetch;
                env_post := fun tx => (createInvoiceNinjaTransaction marshal send cfg tx).1;
                env_stamp := stamp |} in
  forall tx, ~ In (EvPost tx true) (syncTransactions env cfg l).1.2.
Proof.
  intros env. unfold syncTransactions.
  assert (Hpost : forall tx, is_Some (env_post env tx))
    by (intros tx; cbn [env_post env];
        unfold createInvoiceNinjaTransaction, getInvoiceNinjaRequest, getRequest;
        destruct (marshal _); simpl; eauto).
  generalize (prune (env_now env) l). induction (mercuryAccounts cfg) as [|a rest IH];
    intros st tx; simpl; [intros []|].
  destruct (fetch a) as [e|txs].
  - specialize (IH st tx). destruct (process_accounts env rest st) as [[??]?].
    simpl in *. intros [H|H]; [discriminate|done].
  - pose proof (process_txs_no_success env txs st Hpost tx) as Htx.
    destruct (process_txs env txs st) as [[st1 ev1] [err|]]; [done|].
    specialize (IH st1 tx). destruct (process_accounts env rest st1) as [[??]?].
    simpl in *. intros [H|H]%in_app_or; contradiction.
Qed.

(* ================================================================== *)
(** * Further properties of the code *)

(* ------------------------------------------------------------------ *)
(** ** How a cycle changes the ledger *)

(** A cycle changes the ledger in two ways only: the prune at its start, and
    one new entry for each ID it posted successfully, holding the clock
    reading taken right after that post (line 322).  An entry that survives
    the prune keeps its [firstSeenAt]: it is never refreshed, even when the
    transaction is fetched again. *)
Theorem sync_ledger_update (env : Env) (cfg : Config) (l : Ledger) (k : string) :
  (syncTransactions env cfg l).1.1 !! k =
  match prune (env_now env) l !! k with
  | Some t => Some t
  | None => posted_stamp env k (syncTransactions env cfg l).1.2
  end.
Proof. apply process_accounts_ledger. Qed.

(* ------------------------------------------------------------------ *)
(** ** When a cycle fails *)

Lemma process_txs_failed_post (env : Env) (txs : list MercuryTransaction) (st : Ledger) :
  failed_post_shape env (process_txs env txs st).
Proof.
  revert st. induction txs as [|tx rest IH]; intros st; simpl.
  { unfold failed_post_shape; simpl. intros tx []. }
  destruct (st !! tx_ID tx) as [t0|].
  - specialize (IH st). destruct (process_txs env rest st) as [[st' ev] [e|]];
      unfold failed_post_shape in *; simpl in *.
    + destruct IH as (pre & tx' & Hev & Hp & Hno). subst ev.
      exists (EvSkip tx :: pre), tx'. split; [done|]. split; [done|].
      intros tx'' [H|H]; [discriminate|by apply (Hno tx'')].
    + intros tx' [H|H]; [discriminate|by apply (IH tx')].
  - destruct (env_post env tx) as [e|] eqn:Hp.
    + unfold failed_post_shape; simpl. exists [], tx. split; [done|].
      split; [done|]. intros tx' [].
    + specialize (IH (<[tx_ID tx := env_stamp env tx]> st)).
      destruct (process_txs env rest _) as [[st' ev] [e|]];
        unfold failed_post_shape in *; simpl in *.
      * destruct IH as (pre & tx' & Hev & Hp' & Hno). subst ev.
        exists (EvPost tx true :: pre), tx'. split; [done|]. split; [done|].
        intros tx'' [H|H]; [discriminate|by apply (Hno tx'')].
      * intros tx' [H|H]; [discriminate|by apply (IH tx')].
Qed.

(** A cycle returns an error exactly when a post request failed: that
    failed post is the last thing the cycle did, its error is the one
    returned, and no other post failed before it.  A cycle without error
    contains no failed post (fetch errors never make it fail). *)
Theorem sync_error_is_last_failed_post (env : Env) (cfg : Config) (l : Ledger) :
  failed_post_shape env (syncTransactions env cfg l).
Proof.
  unfold syncTransactions. generalize (prune (env_now env) l).
  induction (mercuryAccounts cfg) as [|a rest IH]; intros st; simpl.
  { unfold failed_post_shape; simpl. intros tx []. }
  destruct (env_fetch env a) as [e|txs].
  - specialize (IH st). destruct (process_accounts env rest st) as [[st' ev] [e'|]];
      unfold failed_post_shape in *; simpl in *.
    + destruct IH as (pre & tx' & Hev & Hp & Hno). subst ev.
      exists (EvFetchError a e :: pre), tx'. split; [done|]. split; [done|].
      intros tx'' [H|H]; [discriminate|by apply (Hno tx'')].
    + intros tx' [H|H]; [discriminate|by apply (IH tx')].
  - pose proof (process_txs_failed_post env txs st) as Htx.
    destruct (process_txs env txs st) as [[st1 ev1] [e|]]; [exact Htx|].
    specialize (IH st1). unfold failed_post_shape in Htx; simpl in Htx.
    destruct (process_accounts env rest st1) as [[st2 ev2] [e'|]];
      unfold failed_post_shape in *; simpl in *.
    + destruct IH as (pre & tx' & Hev & Hp & Hno). subst ev2.
      exists (ev1 ++ pre), tx'. rewrite app_assoc. split; [done|]. split; [done|].
      intros tx'' [H|H]%in_app_or; [by apply (Htx tx'')|by apply (Hno tx'')].
    + intros tx' [H|H]%in_app_or; [by apply (Htx tx')|by apply (IH tx')].
Qed.

(* ------------------------------------------------------------------ *)
(** ** The bank transaction record *)

(** The record built for a transaction sends a non-negative magnitude, and
    its category and magnitude together give back the signed amount: the
    category is CREDIT exactly for a positive amount. *)
Theorem bank_tx_of_amount_round_trip (cfg : Config) (tx : MercuryTransaction) :
  (0 <= bt_Amount (bank_tx_of cfg tx))%Q /\
  (signed_amount (bank_tx_of cfg tx) == tx_Amount tx)%Q /\
  (bt_BaseType (bank_tx_of cfg tx) = "CREDIT" <-> (0 < tx_Amount tx)%Q).
Proof.
  unfold bank_tx_of, signed_amount; simpl.
  split; [apply Qabs_nonneg|].
  destruct (Qlt_le_dec 0 (tx_Amount tx)) as [Hp|Hn].
  - rewrite bool_decide_eq_true_2 by done. split; [|done].
    apply Qabs_pos. apply Qlt_le_weak, Hp.
  - rewrite bool_decide_eq_false_2 by done. split.
    + rewrite Qabs_neg by exact Hn. ring.
    + split; [discriminate|]. intros Hp. exfalso. apply (Qlt_not_le _ _ Hp Hn).
Qed.

Lemma check_pad4_range : forallb check_pad4 (map Z.of_nat (seq 0 (Z.to_nat 10000))) = true.
Proof. vm_compute. reflexivity. Qed.

Lemma check_pad2_range : forallb check_pad2 (map Z.of_nat (seq 0 (Z.to_nat 100))) = true.
Proof. vm_compute. reflexivity. Qed.

Lemma check_in_range (f : Z -> bool) (bound : Z) (n : Z) :
  forallb f (map Z.of_nat (seq 0 (Z.to_nat bound))) = true -> 0 <= n < bound -> f n = true.
Proof.
  intros Hall Hn. rewrite forallb_forall in Hall. apply Hall.
  apply in_map_iff. exists (Z.to_nat n). split; [lia|].
  apply in_seq. lia.
Qed.

(** The date sent is [YYYY-MM-DD] and reads back as the calendar date of
    [PostedAt] (for years 0-9999); the time of day does not enter it. *)
Theorem format_date_round_trip (t : Timestamp)
    (Hy : 0 <= ts_year t <= 9999) (Hm : 0 <= ts_month t <= 99)
    (Hd : 0 <= ts_day t <= 99) :
  parse_date (format_date t) = Some (ts_year t, ts_month t, ts_day t).
Proof.
  pose proof (check_in_range check_pad4 10000 (ts_year t) check_pad4_range
                ltac:(lia)) as Y.
  pose proof (check_in_range check_pad2 100 (ts_month t) check_pad2_range
                ltac:(lia)) as M.
  pose proof (check_in_range check_pad2 100 (ts_day t) check_pad2_range
                ltac:(lia)) as D.
  unfold check_pad4, check_pad2 in *.
  unfold format_date, format_year.
  replace (ts_year t <? 0) with false by (symmetry; apply Z.ltb_ge; lia).
  destruct (zero_pad 4 (decimal (ts_year t))) as [|a [|b [|c [|e [|]]]]];
    try discriminate.
  destruct (zero_pad 2 (decimal (ts_month t))) as [|m1 [|m2 [|]]]; try discriminate.
  destruct (zero_pad 2 (decimal (ts_day t))) as [|d1 [|d2 [|]]]; try discriminate.
  apply Z.eqb_eq in Y, M, D. simpl. by rewrite Y, M, D.
Qed.

Lemma format_date_round_trip_witness :
  parse_date (format_date sample_date) = Some (2024, 3, 5).
Proof. apply (format_date_round_trip sample_date); simpl; lia. Defined.

(* ------------------------------------------------------------------ *)
(** ** submitRequest and the fetches *)

(** [submitRequest] succeeds exactly when the client returns a response with
    status 200 exactly, whose body is read without error and decodes; any
    other status (201 and 204 included) is an error that quotes the status
    and the body. *)
Theorem submitRequest_success_iff {A : Type} (do_ : Request -> string + Response)
    (unmarshal : string -> string + A) (req : Request) :
  (forall v, submitRequest do_ unmarshal req = inr v <->
     exists resp, do_ req = inr resp /\ resp_StatusCode resp = 200 /\
       resp_ReadError resp = None /\ unmarshal (resp_Body resp) = inr v) /\
  (forall resp, do_ req = inr resp -> resp_StatusCode resp <> 200 ->
     submitRequest do_ unmarshal req =
     inl ("error submitting request: " +:+ (req_Method req +:+ " " +:+ req_URL req)
          +:+ ": " +:+ decimal (resp_StatusCode resp) +:+ " " +:+ resp_Body resp)).
Proof.
  unfold submitRequest. split.
  - intros v. split.
    + destruct (do_ req) as [e|resp]; [discriminate|].
      case_bool_decide as Hs; [discriminate|].
      destruct (resp_ReadError resp) as [e|] eqn:Hr; [discriminate|].
      destruct (unmarshal (resp_Body resp)) as [e|w] eqn:Hu; [discriminate|].
      intros [= <-]. exists resp. repeat split; [|done|done].
      destruct (Z.eq_dec (resp_StatusCode resp) 200); [done|contradiction].
    + intros (resp & -> & Hs & Hr & Hu).
      rewrite bool_decide_eq_false_2 by (rewrite Hs; auto). by rewrite Hr, Hu.
  - intros resp Hdo Hs. rewrite Hdo. cbn beta iota.
    rewrite bool_decide_eq_true_2 by exact Hs. reflexivity.
Qed.

Lemma submitRequest_success_iff_witness :
  (fun _ : Request => inr created_response : string + Response)
    {| req_Method := "GET"; req_URL := "https://api.mercury.com/api/v1/accounts";
       req_Header := []; req_Body := None |} = inr created_response /\
  resp_StatusCode created_response <> 200 /\
  submitRequest (fun _ => inr created_response) (fun _ => inr tt)
    {| req_Method := "GET"; req_URL := "https://api.mercury.com/api/v1/accounts";
       req_Header := []; req_Body := None |} =
    inl ("error submitting request: GET https://api.mercury.com/api/v1/accounts: 201 {}").
Proof.
  split; [reflexivity|]. split; [discriminate|].
  rewrite (proj2 (submitRequest_success_iff (fun _ => inr created_response) (fun _ => inr tt)
             {| req_Method := "GET"; req_URL := "https://api.mercury.com/api/v1/accounts";
                req_Header := []; req_Body := None |})
             created_response eq_refl ltac:(discriminate)).
  reflexivity.
Defined.

Lemma find_integration_first (p : string) (igs : list BankIntegration) (id : string) :
  find_integration p igs = Some id <->
  exists pre ig post, igs = pre ++ ig :: post /\ ig_ProviderName ig = p /\
    ig_ID ig = id /\ (forall ig', In ig' pre -> ig_ProviderName ig' <> p).
Proof.
  induction igs as [|ig rest IH]; simpl.
  - split; [discriminate|]. intros (pre & ig & post & H & _). by destruct pre.
  - case_bool_decide as Hp.
    + split.
      * intros [= <-]. exists [], ig, rest. by repeat split.
      * intros (pre & ig' & post & Heq & Hn & Hid & Hpre).
        destruct pre as [|x pre]; simpl in Heq; injection Heq as -> ?.
        { by subst. }
        exfalso. by apply (Hpre x); [left|].
    + rewrite IH. split.
      * intros (pre & ig' & post & -> & Hn & Hid & Hpre).
        exists (ig :: pre), ig', post. repeat split; try done.
        intros ig'' [<-|H]; [done|auto].
      * intros (pre & ig' & post & Heq & Hn & Hid & Hpre).
        destruct pre as [|x pre]; simpl in Heq; injection Heq as -> ?.
        { by subst. }
        subst rest. exists pre, ig', post. repeat split; try done.
        intros ig'' H. apply Hpre. by right.
Qed.

Lemma find_integration_none (p : string) (igs : list BankIntegration) :
  find_integration p igs = None -> forall ig, In ig igs -> ig_ProviderName ig <> p.
Proof.
  induction igs as [|ig rest IH]; simpl; [done|].
  case_bool_decide as Hp; [discriminate|]. intros Hf ig' [<-|Hin]; auto.
Qed.

(** The GET requests of the two APIs, once built: no body, no
    [Content-Type], the credentials in their headers. *)
Lemma invoiceninja_get_request (marshal : GoValue -> string + string) (cfg : Config)
    (url : string) :
  getInvoiceNinjaRequest marshal cfg "GET" url VNil =
  inr {| req_Method := "GET"; req_URL := InvoiceNinjaURL cfg +:+ "/api/v1" +:+ url;
         req_Header := [("X-API-Token", InvoiceNinjaToken cfg);
                        ("X-Requested-With", "XMLHttpRequest")];
         req_Body := None |}.
Proof. reflexivity. Qed.

Lemma mercury_get_request (marshal : GoValue -> string + string) (cfg : Config)
    (url : string) :
  getMercuryRequest marshal cfg "GET" url VNil =
  inr {| req_Method := "GET"; req_URL := "https://api.mercury.com/api/v1" +:+ url;
         req_Header := [("Authorization", "Bearer " +:+ MercuryAPIKey cfg)];
         req_Body := None |}.
Proof. reflexivity. Qed.

(** [fetchBankIntegrationID]: on success, it sent one GET to
    [<InvoiceNinjaURL>/api/v1/bank_integrations] carrying the token, and the
    ID recorded is that of the first integration in the response whose
    provider name equals the configured provider; nothing else in the
    configuration changes.  On error the configuration is unchanged, and when
    the response did decode the error means that no integration matched. *)
Theorem fetchBankIntegrationID_outcome (marshal : GoValue -> string + string)
    (do_ : Request -> string + Response)
    (unmarshal : string -> string + list BankIntegration) (cfg : Config) :
  match fetchBankIntegrationID marshal do_ unmarshal cfg with
  | (cfg', None) =>
      exists req igs pre ig post,
        getInvoiceNinjaRequest marshal cfg "GET" "/bank_integrations" VNil = inr req /\
        req_Method req = "GET" /\
        req_URL req = InvoiceNinjaURL cfg +:+ "/api/v1/bank_integrations" /\
        header_get "X-API-Token" (req_Header req) = Some (InvoiceNinjaToken cfg) /\
        req_Body req = None /\
        submitRequest do_ unmarshal req = inr igs /\
        igs = pre ++ ig :: post /\ ig_ProviderName ig = BankProvider cfg /\
        (forall ig', In ig' pre -> ig_ProviderName ig' <> BankProvider cfg) /\
        cfg' = with_bank_integration_id (ig_ID ig) cfg
  | (cfg', Some e) =>
      cfg' = cfg /\
      forall req igs,
        getInvoiceNinjaRequest marshal cfg "GET" "/bank_integrations" VNil = inr req ->
        submitRequest do_ unmarshal req = inr igs ->
        (forall ig, In ig igs -> ig_ProviderName ig <> BankProvider cfg) /\
        e = "no bank integration found for provider: " +:+ BankProvider cfg
  end.
Proof.
  unfold fetchBankIntegrationID. rewrite invoiceninja_get_request.
  set (req := {| req_Method := "GET"; req_URL := _; req_Header := _; req_Body := None |}).
  destruct (submitRequest do_ unmarshal req) as [e|igs] eqn:Hs.
  - split; [done|]. intros r igs [= <-]. congruence.
  - destruct (find_integration (BankProvider cfg) igs) as [id|] eqn:Hf.
    + apply find_integration_first in Hf as (pre & ig & post & -> & Hn & <- & Hpre).
      exists req, (pre ++ ig :: post), pre, ig, post.
      subst req; cbn. rewrite bool_decide_eq_true_2 by done. by repeat split.
    + split; [done|]. intros r igs' [= <-] Hs'. rewrite Hs in Hs'. injection Hs' as <-.
      split; [|done]. by apply find_integration_none.
Qed.

(** [fetchMercuryAccounts]: on success, it sent one GET to
    [https://api.mercury.com/api/v1/accounts] with the bearer key, and the
    accounts become exactly the decoded list, every other field unchanged;
    on error the configuration is unchanged. *)
Theorem fetchMercuryAccounts_outcome (marshal : GoValue -> string + string)
    (do_ : Request -> string + Response)
    (unmarshal : string -> string + list MercuryAccount) (cfg : Config) :
  match fetchMercuryAccounts marshal do_ unmarshal cfg with
  | (cfg', None) =>
      exists req accts,
        getMercuryRequest marshal cfg "GET" "/accounts" VNil = inr req /\
        req_Method req = "GET" /\
        req_URL req = "https://api.mercury.com/api/v1/accounts" /\
        header_get "Authorization" (req_Header req) = Some ("Bearer " +:+ MercuryAPIKey cfg) /\
        req_Body req = None /\
        submitRequest do_ unmarshal req = inr accts /\
        cfg' = with_accounts accts cfg
  | (cfg', Some _) => cfg' = cfg
  end.
Proof.
  unfold fetchMercuryAccounts. rewrite mercury_get_request.
  set (req := {| req_Method := "GET"; req_URL := _; req_Header := _; req_Body := None |}).
  destruct (submitRequest do_ unmarshal req) as [e|accts] eqn:Hs; [done|].
  exists req, accts. subst req; cbn. rewrite bool_decide_eq_true_2 by done.
  by repeat split.
Qed.

(* ------------------------------------------------------------------ *)
(** ** Loading the configuration and starting up *)

(** [loadConfig] checks the credentials in order: a decoded file without a
    Mercury key is always refused with "missing Mercury API key", whatever
    else it holds; a file with a key but no token is refused with "missing
    InvoiceNinja token". *)
Theorem loadConfig_credential_checks (parseRequestURI : string -> error)
    (dataDir flagURL : string) (j : ConfigJSON) :
  (loadConfig parseRequestURI dataDir flagURL (inr j) = inl "missing Mercury API key" <->
   default "" (j_mercuryAPIKey j) = "") /\
  (loadConfig parseRequestURI dataDir flagURL (inr j) = inl "missing InvoiceNinja token" <->
   default "" (j_mercuryAPIKey j) <> "" /\ default "" (j_invoiceNinjaToken j) = "").
Proof.
  unfold loadConfig; cbn [apply_json default_config MercuryAPIKey InvoiceNinjaToken
                          InvoiceNinjaURL].
  destruct (decide (default "" (j_mercuryAPIKey j) = "")) as [Hk|Hk];
    [rewrite bool_decide_eq_true_2 by exact Hk
    |rewrite bool_decide_eq_false_2 by exact Hk;
     destruct (decide (default "" (j_invoiceNinjaToken j) = "")) as [Ht|Ht];
     [rewrite bool_decide_eq_true_2 by exact Ht
     |rewrite bool_decide_eq_false_2 by exact Ht;
      match goal with |- context [parseRequestURI ?u] => destruct (parseRequestURI u) end]];
    split; split; try done; try (intros Heq; discriminate Heq);
    try (intros [? _]; contradiction); intros [_ ?]; contradiction.
Qed.

(** A configuration [loadConfig] returns has a Mercury key and a token, an
    Invoice Ninja URL that [url.ParseRequestURI] accepts, taken from the file
    unless the file's is empty or absent and then from the [-i] flag, the
    file's values or the defaults (provider "Mercury", every hour, 7 days
    back, level "info") for the other settings, and neither a bank
    integration ID nor accounts yet. *)
Theorem loadConfig_success (parseRequestURI : string -> error)
    (dataDir flagURL : string) (parsed : string + ConfigJSON) (c : Config)
    (H : loadConfig parseRequestURI dataDir flagURL parsed = inr c) :
  exists j, parsed = inr j /\
    MercuryAPIKey c = default "" (j_mercuryAPIKey j) /\ MercuryAPIKey c <> "" /\
    InvoiceNinjaToken c = default "" (j_invoiceNinjaToken j) /\ InvoiceNinjaToken c <> "" /\
    InvoiceNinjaURL c = (if bool_decide (default "" (j_invoiceNinjaURL j) = "")
                         then flagURL else default "" (j_invoiceNinjaURL j)) /\
    parseRequestURI (InvoiceNinjaURL c) = None /\
    BankProvider c = default "Mercury" (j_invoiceNinjaBankProvider j) /\
    SyncIntervalHours c = default 1 (j_syncIntervalHours j) /\
    SyncStartDaysAgo c = default 7 (j_syncStartDaysAgo j) /\
    LogLevel c = default "info" (j_logLevel j) /\
    bankIntegrationID c = "" /\ mercuryAccounts c = [].
Proof.
  destruct parsed as [e|j]; [discriminate|]. exists j. split; [done|].
  unfold loadConfig in H; cbn [apply_json default_config MercuryAPIKey InvoiceNinjaToken
                               InvoiceNinjaURL] in H.
  case_bool_decide as Hk; [discriminate|].
  case_bool_decide as Ht; [discriminate|].
  case_bool_decide as Hu;
    (destruct (parseRequestURI _) as [e|] eqn:Hp in H; [discriminate|]);
    injection H as <-; cbn; rewrite ?Hu; by repeat split.
Qed.

Lemma loadConfig_success_witness :
  loadConfig accepts_url "/data" "https://invoicing.example.com" (inr config_json_no_url) =
    inr (with_url "https://invoicing.example.com"
           (apply_json config_json_no_url (default_config "/data"))) /\
  InvoiceNinjaURL (with_url "https://invoicing.example.com"
                     (apply_json config_json_no_url (default_config "/data"))) =
    "https://invoicing.example.com" /\
  SyncIntervalHours (with_url "https://invoicing.example.com"
                       (apply_json config_json_no_url (default_config "/data"))) = 6.
Proof.
  split; [reflexivity|].
  destruct (loadConfig_success accepts_url "/data" "https://invoicing.example.com"
              (inr config_json_no_url)
              (with_url "https://invoicing.example.com"
                 (apply_json config_json_no_url (default_config "/data")))
              eq_refl)
    as (j & Hj & _ & _ & _ & _ & Hurl & _ & _ & Hint & _).
  injection Hj as <-. split; [exact Hurl|exact Hint].
Defined.

(** A state file that does not decode stops the program at startup with
    "Error loading state: error parsing state file: ...", once the
    configuration has loaded, before any request to either API: the outcome
    does not depend on the HTTP client. *)
Theorem startup_corrupt_state_exits (parseRequestURI : string -> error)
    (dataDir flagURL : string) (parsed : string + ConfigJSON) (json_err : string)
    (marshal : GoValue -> string + string) (do_ : Request -> string + Response)
    (un_igs : string -> string + list BankIntegration)
    (un_accts : string -> string + list MercuryAccount) (now0 : Z) (cfg : Config)
    (H : loadConfig parseRequestURI dataDir flagURL parsed = inr cfg) :
  main_startup parseRequestURI dataDir flagURL parsed DiskCorrupt json_err
    marshal do_ un_igs un_accts now0 =
  inl ("Error loading state: error parsing state file: " +:+ json_err).
Proof. unfold main_startup. by rewrite H. Qed.

Lemma startup_corrupt_state_exits_witness :
  main_startup accepts_url "/data" "" (inr empty_config_json) DiskCorrupt
    "unexpected end of JSON input" marshal_any do_ok decode_integrations
    decode_accounts 0 =
  inl ("Error loading state: error parsing state file: unexpected end of JSON input").
Proof.
  exact (startup_corrupt_state_exits accepts_url "/data" "" (inr empty_config_json)
           "unexpected end of JSON input" marshal_any do_ok decode_integrations
           decode_accounts 0 _ eq_refl).
Defined.


